(** * Topic-tree subscriber management: a shallow embedding of [main.py]

    The Python module keeps a trie of [TreeNode] objects.  Every node owns a
    dictionary [children] from segment strings to child nodes and a set
    [subscribers] of subscriber identifiers.  The dictionary is only ever used
    as a map (membership test, lookup, assignment, iteration over the values
    whose results are united into a set), so it is a [gmap string TreeNode];
    the set is a [gset string].

    [add_subscriber] and [remove_subscriber] mutate the tree in place.  Every
    node is created by a fresh [TreeNode()] call inside [add_subscriber] and is
    stored in exactly one dictionary, so no node is shared: the in-place update
    of the node reached along a path is the functional update of the tree along
    that path, and both operations are modelled as functions returning the tree
    after the call. *)

From stdpp Require Import gmap strings list fin_maps fin_sets.

#[local] Set Warnings "-register-all".

(** ** 1. TreeNode structure *)

Inductive TreeNode : Type :=
  mkNode { children : gmap string TreeNode; subscribers : gset string }.

(** [TreeNode()]: no children, no subscribers. *)
Definition new_node : TreeNode := mkNode ∅ ∅.

(** Number of nodes on the longest downward path; the measure of all
    arguments by induction on the tree. *)
Fixpoint height (root : TreeNode) : nat :=
  S (map_fold (λ _ child acc, acc `max` height child) 0 (children root)).

(** The node reached from [root] by following the keys of [topic_list], as
    the loop [node = node.children[topic]] does when every key is present. *)
Fixpoint walk (root : TreeNode) (topic_list : list string) : option TreeNode :=
  match topic_list with
  | [] => Some root
  | topic :: rest =>
      match children root !! topic with
      | Some child => walk child rest
      | None => None
      end
  end.

(** ** 2. add_subscriber *)

(** The loop descends through [topic_list], creating the missing child on the
    way, and adds [subscriber_id] to the set of the last node. *)
Fixpoint add_subscriber (root : TreeNode) (subscriber_id : string)
    (topic_list : list string) : TreeNode :=
  match topic_list with
  | [] => mkNode (children root) (subscribers root ∪ {[subscriber_id]})
  | topic :: rest =>
      let child := default new_node (children root !! topic) in
      mkNode (<[topic := add_subscriber child subscriber_id rest]> (children root))
             (subscribers root)
  end.

(** ** 3. remove_subscriber *)

(** The loop descends while the key is present and returns at the first
    missing key; at the end of the path it discards [subscriber_id]. *)
Fixpoint remove_subscriber (root : TreeNode) (subscriber_id : string)
    (topic_list : list string) : TreeNode :=
  match topic_list with
  | [] => mkNode (children root) (subscribers root ∖ {[subscriber_id]})
  | topic :: rest =>
      match children root !! topic with
      | Some child =>
          mkNode (<[topic := remove_subscriber child subscriber_id rest]> (children root))
                 (subscribers root)
      | None => root
      end
  end.

(** ** 4. get_subscribers *)

(** [for child in d.values(): subscribers |= f(child)] starting from the
    empty set. *)
Definition union_children (f : TreeNode → gset string)
    (d : gmap string TreeNode) : gset string :=
  map_fold (λ _ child acc, acc ∪ f child) ∅ d.

(** The recursion of [get_subscribers] descends in the tree, except for the
    zero-level branch of ["**"], which stays on the node and shortens the
    pattern: an outer fixpoint on the node and an inner one on the pattern.
    In the exact-match branch the call on [root.children[head]] is written as
    the lookup of [head] in the children mapped by the recursive call, the form
    in which the recursion is visibly on a child ([get_subscribers_unfold]
    below gives the equation with the lookup first). *)
Fixpoint get_subscribers (root : TreeNode) {struct root} : list string → gset string :=
  fix go (topic_list : list string) {struct topic_list} : gset string :=
    match topic_list with
    | [] => subscribers root
    | head :: tail =>
        if decide (head = "*") then
          union_children (λ child, get_subscribers child tail) (children root)
        else if decide (head = "**") then
          go tail
          ∪ union_children (λ child, get_subscribers child topic_list) (children root)
        else
          default ∅ (((λ child, get_subscribers child tail) <$> children root) !! head)
    end.

(** ** 5. get_subscribers_recursive *)

Fixpoint get_subscribers_recursive (root : TreeNode) : gset string :=
  subscribers root ∪ union_children get_subscribers_recursive (children root).

(** ** 6. add_subscriber_multi *)

Definition add_subscriber_multi (root : TreeNode) (subscriber_id : string)
    (topics : list (list string)) : TreeNode :=
  foldl (λ node topic_list, add_subscriber node subscriber_id topic_list) root topics.

(** A sequence of [add_subscriber(root, id, path)] calls, in order. *)
Definition register_all (root : TreeNode) (regs : list (string * list string)) : TreeNode :=
  foldl (λ node r, add_subscriber node r.1 r.2) root regs.

(** ** Recursion depth of get_subscribers *)

(** [get_subscribers] with a bound on the depth of the call stack: every call
    takes one unit of [fuel], and a call without fuel fails (Python raises
    [RecursionError]), as does a call one of whose recursive calls failed. *)
Definition union_children_opt (f : TreeNode → option (gset string))
    (d : gmap string TreeNode) : option (gset string) :=
  map_fold (λ _ child acc, s ← acc; r ← f child; Some (s ∪ r)) (Some ∅) d.

Fixpoint get_subscribers_fuel (fuel : nat) (root : TreeNode)
    (topic_list : list string) : option (gset string) :=
  match fuel with
  | 0 => None
  | S fuel =>
      match topic_list with
      | [] => Some (subscribers root)
      | head :: tail =>
          if decide (head = "*") then
            union_children_opt (λ child, get_subscribers_fuel fuel child tail) (children root)
          else if decide (head = "**") then
            s ← get_subscribers_fuel fuel root tail;
            r ← union_children_opt (λ child, get_subscribers_fuel fuel child topic_list)
                   (children root);
            Some (s ∪ r)
          else
            match children root !! head with
            | Some child => get_subscribers_fuel fuel child tail
            | None => Some ∅
            end
      end
  end.

(** ** The calls made by get_subscribers *)

(** A node is identified by the keys on the way from the node of the outermost
    call to it.  [calls root here topic_list] lists, for the call
    [get_subscribers(root, topic_list)] on the node at [here], every call that
    is made (itself included) as the pair of the node called on and the pattern
    it is called with. *)
Definition concat_children (f : string → TreeNode → list (list string * list string))
    (d : gmap string TreeNode) : list (list string * list string) :=
  map_fold (λ key child acc, acc ++ f key child) [] d.

Fixpoint calls (root : TreeNode) (here : list string) {struct root}
    : list string → list (list string * list string) :=
  fix go (topic_list : list string) {struct topic_list} :=
    (here, topic_list) ::
    match topic_list with
    | [] => []
    | head :: tail =>
        if decide (head = "*") then
          concat_children (λ key child, calls child (here ++ [key]) tail) (children root)
        else if decide (head = "**") then
          go tail
          ++ concat_children (λ key child, calls child (here ++ [key]) topic_list)
               (children root)
        else
          default [] (((λ child, calls child (here ++ [head]) tail) <$> children root) !! head)
    end.

(** Number of ["**"] tokens of a pattern. *)
Definition multi_count (topic_list : list string) : nat :=
  length (filter (λ s, s = "**") topic_list).

(** ** The paths a pattern selects *)

(** [matches pattern path]: the sequence of keys [path] is one that the query
    [pattern] selects, a ["*"] standing for exactly one key, a ["**"] for any
    number of keys, and any other segment for itself.  It is the vocabulary in
    which the results of [get_subscribers] are described below; the code has
    no such function, it interleaves this test with the descent. *)
Fixpoint matches (pattern : list string) {struct pattern} : list string → bool :=
  match pattern with
  | [] => λ path, bool_decide (path = [])
  | head :: tail =>
      fix go (path : list string) {struct path} : bool :=
        if decide (head = "*") then
          match path with
          | [] => false
          | _ :: rest => matches tail rest
          end
        else if decide (head = "**") then
          matches tail path
          || match path with
             | [] => false
             | _ :: rest => go rest
             end
        else
          match path with
          | [] => false
          | key :: rest => bool_decide (key = head) && matches tail rest
          end
  end.

(** ** The tree of the example in [main.py] *)

Definition example_tree : TreeNode :=
  add_subscriber_multi
    (register_all new_node
       [("sub1", ["nytimes"; "us"; "editorial"]);
        ("sub2", ["washington"; "us"; "sports"]);
        ("sub3", ["nytimes"; "india"; "politics"])])
    "sub4" [["nytimes"; "us"; "sports"]; ["washington"; "us"; "politics"]].


(** * Proofs *)

(** ** Folds over the children *)

Section children_folds.
Implicit Types (d : gmap string TreeNode) (x : string).

Lemma elem_of_union_children (f : TreeNode → gset string) d x :
  x ∈ union_children f d ↔ ∃ key child, d !! key = Some child ∧ x ∈ f child.
Proof.
  unfold union_children. revert x.
  apply (map_fold_weak_ind (λ r m,
    ∀ x, x ∈ r ↔ ∃ key child, m !! key = Some child ∧ x ∈ f child)).
  - intros x. split; [set_solver|]. intros (k & c & Hk & _).
    by rewrite lookup_empty in Hk.
  - intros i c m r Hi IH x. rewrite elem_of_union, IH. split.
    + intros [(k & c' & Hk & Hx)|Hx].
      * exists k, c'. split; [|done].
        rewrite lookup_insert_ne; [done|]. intros ->. congruence.
      * exists i, c. by rewrite lookup_insert_eq.
    + intros (k & c' & Hk & Hx). destruct (decide (i = k)) as [->|Hne].
      * rewrite lookup_insert_eq in Hk. right. congruence.
      * rewrite lookup_insert_ne in Hk by done. left. eauto.
Qed.

Lemma union_children_ext (f g : TreeNode → gset string) d :
  map_Forall (λ _ child, f child = g child) d →
  union_children f d = union_children g d.
Proof.
  intros Hfg. apply set_eq. intros x. rewrite !elem_of_union_children.
  split; intros (k & c & Hk & Hx); exists k, c; split; try done.
  - by rewrite <- (Hfg k c Hk).
  - by rewrite (Hfg k c Hk).
Qed.

Lemma height_fold_le (f : TreeNode → nat) d key child :
  d !! key = Some child →
  f child ≤ map_fold (λ _ c acc, acc `max` f c) 0 d.
Proof.
  revert key child.
  apply (map_fold_weak_ind (λ r m,
    ∀ key child, m !! key = Some child → f child ≤ r)).
  - intros k c Hk. by rewrite lookup_empty in Hk.
  - intros i c m r Hi IH k c' Hk. destruct (decide (i = k)) as [->|Hne].
    + rewrite lookup_insert_eq in Hk. injection Hk as ->. lia.
    + rewrite lookup_insert_ne in Hk by done. specialize (IH k c' Hk). lia.
Qed.
End children_folds.

Lemma height_child root key child :
  children root !! key = Some child → height child < height root.
Proof.
  intros Hk. destruct root as [d s]. simpl in *.
  apply Nat.lt_succ_r. by apply (height_fold_le height d key child).
Qed.

(** Induction on the tree: a property holds of a node when it holds of all
    its children. *)
Lemma TreeNode_children_ind (P : TreeNode → Prop) :
  (∀ root, map_Forall (λ _ child, P child) (children root) → P root) →
  ∀ root, P root.
Proof.
  intros Hstep root.
  remember (height root) as n eqn:Hn.
  revert root Hn. induction n as [n IH] using lt_wf_ind.
  intros root ->. apply Hstep. intros key child Hk.
  apply (IH (height child)); [by eapply height_child|done].
Qed.

(** ** The equations of get_subscribers *)

Lemma get_subscribers_nil root : get_subscribers root [] = subscribers root.
Proof. by destruct root. Qed.

Lemma get_subscribers_single root tail :
  get_subscribers root ("*" :: tail)
  = union_children (λ child, get_subscribers child tail) (children root).
Proof. by destruct root. Qed.

Lemma get_subscribers_multi root tail :
  get_subscribers root ("**" :: tail)
  = get_subscribers root tail
    ∪ union_children (λ child, get_subscribers child ("**" :: tail)) (children root).
Proof. by destruct root. Qed.

Lemma get_subscribers_exact root head tail :
  head ≠ "*" → head ≠ "**" →
  get_subscribers root (head :: tail)
  = match children root !! head with
    | Some child => get_subscribers child tail
    | None => ∅
    end.
Proof.
  intros H1 H2. destruct root as [d s]. simpl.
  rewrite !decide_False by done. rewrite lookup_fmap.
  by destruct (d !! head).
Qed.

(** The body of the Python function, with the recursive calls as they are
    written there. *)
Lemma get_subscribers_unfold root topic_list :
  get_subscribers root topic_list
  = match topic_list with
    | [] => subscribers root
    | head :: tail =>
        if decide (head = "*") then
          union_children (λ child, get_subscribers child tail) (children root)
        else if decide (head = "**") then
          get_subscribers root tail
          ∪ union_children (λ child, get_subscribers child topic_list) (children root)
        else
          match children root !! head with
          | Some child => get_subscribers child tail
          | None => ∅
          end
    end.
Proof.
  destruct topic_list as [|head tail]; [apply get_subscribers_nil|].
  destruct (decide (head = "*")) as [->|H1]; [apply get_subscribers_single|].
  destruct (decide (head = "**")) as [->|H2]; [apply get_subscribers_multi|].
  by apply get_subscribers_exact.
Qed.

(** On a path of literal segments the query returns the subscribers of the
    node at the end of the path, and the empty set when there is no such
    node. *)
Lemma get_subscribers_literal_path root topic_list :
  Forall (λ topic, topic ≠ "*" ∧ topic ≠ "**") topic_list →
  get_subscribers root topic_list = default ∅ (subscribers <$> walk root topic_list).
Proof.
  intros Hlit. revert root.
  induction Hlit as [|topic rest [H1 H2] _ IH]; intros root.
  - apply get_subscribers_nil.
  - rewrite get_subscribers_exact by done. simpl.
    destruct (children root !! topic) as [child|]; [apply IH|done].
Qed.

(** ** The example run of [main.py] *)

Example example_exact :
  get_subscribers example_tree ["nytimes"; "us"; "editorial"] = {["sub1"]}.
Proof. vm_compute. reflexivity. Qed.

Example example_single_level :
  get_subscribers example_tree ["*"; "us"; "editorial"] = {["sub1"]}.
Proof. vm_compute. reflexivity. Qed.

Example example_multi_level :
  get_subscribers example_tree ["nytimes"; "**"] = {["sub1"; "sub3"; "sub4"]}.
Proof. vm_compute. reflexivity. Qed.

Example example_subtree :
  get_subscribers_recursive <$> children example_tree !! "nytimes"
  = Some {["sub1"; "sub3"; "sub4"]}.
Proof. vm_compute. reflexivity. Qed.

Example example_removed :
  get_subscribers
    (remove_subscriber example_tree "sub1" ["nytimes"; "us"; "editorial"])
    ["nytimes"; "us"; "editorial"] = ∅.
Proof. vm_compute. reflexivity. Qed.

(** ** The match engine, pattern head by pattern head *)

(** C1.  Multi-level wildcard: the subscribers matched by ["**" :: tail] at a
    node are those matched by [tail] at the same node (zero levels) together
    with those matched by the unchanged pattern ["**" :: tail] at any child
    (one or more levels). *)
Theorem multi_level_wildcard_semantics root tail :
  get_subscribers root ("**" :: tail)
  = get_subscribers root tail
    ∪ union_children (λ child, get_subscribers child ("**" :: tail)) (children root)
  ∧ ∀ x, x ∈ get_subscribers root ("**" :: tail) ↔
      x ∈ get_subscribers root tail
      ∨ ∃ key child, children root !! key = Some child
                     ∧ x ∈ get_subscribers child ("**" :: tail).
Proof.
  split; [apply get_subscribers_multi|].
  intros x. by rewrite get_subscribers_multi, elem_of_union, elem_of_union_children.
Qed.

(** C6.  Single-level wildcard: the subscribers matched by ["*" :: tail] at a
    node are those matched by [tail] at any child, whatever its key. *)
Theorem single_level_wildcard_semantics root tail :
  get_subscribers root ("*" :: tail)
  = union_children (λ child, get_subscribers child tail) (children root)
  ∧ ∀ x, x ∈ get_subscribers root ("*" :: tail) ↔
      ∃ key child, children root !! key = Some child
                   ∧ x ∈ get_subscribers child tail.
Proof.
  split; [apply get_subscribers_single|].
  intros x. by rewrite get_subscribers_single, elem_of_union_children.
Qed.

(** C7.  Literal segment: for a head [L] that is neither wildcard token, the
    subscribers matched by [L :: tail] at a node are those matched by [tail]
    at the child keyed [L] when there is one, and the empty set otherwise; a
    path of literal segments that leads to no node matches the empty set. *)
Theorem literal_segment_semantics root L tail :
  L ≠ "*" → L ≠ "**" →
  (∀ child, children root !! L = Some child →
     get_subscribers root (L :: tail) = get_subscribers child tail)
  ∧ (children root !! L = None → get_subscribers root (L :: tail) = ∅)
  ∧ (Forall (λ topic, topic ≠ "*" ∧ topic ≠ "**") tail →
     walk root (L :: tail) = None → get_subscribers root (L :: tail) = ∅).
Proof.
  intros H1 H2. split_and!.
  - intros child Hc. by rewrite get_subscribers_exact, Hc.
  - intros Hc. by rewrite get_subscribers_exact, Hc.
  - intros Hlit Hnone.
    rewrite get_subscribers_literal_path, Hnone; [done|]. by constructor.
Qed.

Lemma literal_segment_semantics_witness :
  get_subscribers example_tree ["nytimes"; "us"; "editorial"]
  = get_subscribers (default new_node (children example_tree !! "nytimes"))
      ["us"; "editorial"]
  ∧ get_subscribers example_tree ["guardian"; "us"] = ∅
  ∧ get_subscribers example_tree ["nytimes"; "uk"] = ∅.
Proof.
  assert (Hlit : ∀ topic : string,
            String.eqb topic "*" = false → String.eqb topic "**" = false →
            topic ≠ "*" ∧ topic ≠ "**").
  { intros topic H1 H2. split; intros ->; discriminate. }
  destruct (Hlit "nytimes" eq_refl eq_refl) as [Hn1 Hn2].
  destruct (Hlit "guardian" eq_refl eq_refl) as [Hg1 Hg2].
  split_and!.
  - destruct (literal_segment_semantics example_tree "nytimes" ["us"; "editorial"]
                Hn1 Hn2) as (Hsome & _ & _).
    apply Hsome. vm_compute. reflexivity.
  - destruct (literal_segment_semantics example_tree "guardian" ["us"] Hg1 Hg2)
      as (_ & Hnone & _).
    apply Hnone. vm_compute. reflexivity.
  - destruct (literal_segment_semantics example_tree "nytimes" ["uk"] Hn1 Hn2)
      as (_ & _ & Hpath).
    apply Hpath.
    + constructor; [apply (Hlit "uk"); reflexivity|constructor].
    + vm_compute. reflexivity.
Defined.

(** ** The subtree aggregator *)

(** C2.  [get_subscribers_recursive] on a node returns the same set as
    [get_subscribers] on that node with the pattern [["**"]]. *)
Theorem subtree_equals_multi_level root :
  get_subscribers_recursive root = get_subscribers root ["**"].
Proof.
  induction root as [root IH] using TreeNode_children_ind.
  rewrite get_subscribers_multi, get_subscribers_nil.
  destruct root as [d s]. simpl in *. f_equal.
  by apply union_children_ext.
Qed.

(** ** Registration *)

Lemma walk_add_subscriber root subscriber_id topic_list :
  ∃ node, walk (add_subscriber root subscriber_id topic_list) topic_list = Some node
          ∧ subscriber_id ∈ subscribers node.
Proof.
  revert root. induction topic_list as [|topic rest IH]; intros root; simpl.
  - eexists. split; [done|]. simpl. set_solver.
  - rewrite lookup_insert_eq. apply IH.
Qed.

Lemma children_add_subscriber root subscriber_id topic rest :
  children (add_subscriber root subscriber_id (topic :: rest)) !! topic
  = Some (add_subscriber (default new_node (children root !! topic)) subscriber_id rest)
  ∧ ∀ other, other ≠ topic →
      children (add_subscriber root subscriber_id (topic :: rest)) !! other
      = children root !! other.
Proof.
  simpl. split; [apply lookup_insert_eq|].
  intros other Hne. by apply lookup_insert_ne.
Qed.

Lemma add_subscriber_twice root subscriber_id topic_list :
  add_subscriber (add_subscriber root subscriber_id topic_list) subscriber_id topic_list
  = add_subscriber root subscriber_id topic_list.
Proof.
  revert root. induction topic_list as [|topic rest IH]; intros root; simpl.
  - f_equal. apply set_eq. intros x. rewrite !elem_of_union. tauto.
  - rewrite lookup_insert_eq, insert_insert_eq. simpl. by rewrite IH.
Qed.

Lemma add_subscriber_comm root id1 path1 id2 path2 :
  add_subscriber (add_subscriber root id1 path1) id2 path2
  = add_subscriber (add_subscriber root id2 path2) id1 path1.
Proof.
  revert root path2. induction path1 as [|a p IH]; intros root [|b q]; simpl; try done.
  - f_equal. apply set_eq. intros x. rewrite !elem_of_union. tauto.
  - destruct (decide (a = b)) as [->|Hne].
    + rewrite !lookup_insert_eq, !insert_insert_eq. simpl. by rewrite IH.
    + rewrite !lookup_insert_ne by done.
      f_equal. by apply insert_insert_ne.
Qed.

Lemma register_all_permutation regs regs' :
  regs ≡ₚ regs' → ∀ root, register_all root regs = register_all root regs'.
Proof.
  unfold register_all.
  induction 1 as [|r l l' _ IH|r1 r2 l|l1 l2 l3 _ IH1 _ IH2]; intros root; simpl.
  - done.
  - apply IH.
  - by rewrite add_subscriber_comm.
  - by rewrite IH1.
Qed.

(** C4.  Subscribing is idempotent: a second [add_subscriber] with the same
    id and path leaves the tree as the first one left it, and so the
    subscriber set of the node at the end of the path. *)
Theorem add_subscriber_idempotent root subscriber_id topic_list :
  let once := add_subscriber root subscriber_id topic_list in
  let twice := add_subscriber once subscriber_id topic_list in
  twice = once
  ∧ subscribers <$> walk twice topic_list = subscribers <$> walk once topic_list
  ∧ ∀ pattern, get_subscribers twice pattern = get_subscribers once pattern.
Proof.
  intros once twice. unfold twice, once. by rewrite add_subscriber_twice.
Qed.

(** C9.  Registration order independence: the registrations of a sequence,
    applied to a fresh tree in any order, give the same result for every
    query pattern. *)
Theorem registration_order_independent
    (regs regs' : list (string * list string)) (pattern : list string) :
  regs ≡ₚ regs' →
  get_subscribers (register_all new_node regs) pattern
  = get_subscribers (register_all new_node regs') pattern.
Proof. intros Hp. by rewrite (register_all_permutation regs regs' Hp). Qed.

Lemma registration_order_independent_witness :
  get_subscribers
    (register_all new_node
       [("sub1", ["nytimes"; "us"]); ("sub2", ["nytimes"; "*"]); ("sub1", [])])
    ["nytimes"; "**"]
  = get_subscribers
      (register_all new_node
         [("sub1", []); ("sub1", ["nytimes"; "us"]); ("sub2", ["nytimes"; "*"])])
      ["nytimes"; "**"].
Proof.
  apply registration_order_independent.
  symmetry. apply (Permutation_cons_append [_; _]).
Defined.

(** C10.  A subscriber registered on a path is found by the query with that
    same path, also when segments of the path are the tokens ["*"] or ["**"],
    which [add_subscriber] stores as ordinary keys. *)
Theorem subscribe_then_query root subscriber_id topic_list :
  subscriber_id ∈ get_subscribers (add_subscriber root subscriber_id topic_list) topic_list.
Proof.
  revert root. induction topic_list as [|topic rest IH]; intros root.
  - rewrite get_subscribers_nil. simpl. set_solver.
  - destruct (children_add_subscriber root subscriber_id topic rest) as [Hc _].
    set (child := add_subscriber _ subscriber_id rest) in Hc.
    assert (Hin : subscriber_id ∈ get_subscribers child rest) by apply IH.
    rewrite get_subscribers_unfold.
    destruct (decide (topic = "*")) as [->|H1].
    { apply elem_of_union_children. by exists "*", child. }
    destruct (decide (topic = "**")) as [->|H2].
    { apply elem_of_union. right. apply elem_of_union_children.
      exists "**", child. split; [done|].
      rewrite get_subscribers_multi. set_solver. }
    by rewrite Hc.
Qed.

(** ** Removal *)

(** C5.  Removal from a path that does not exist, or of an id that is not
    registered at the end of an existing path, returns normally and changes
    nothing in the tree. *)
Theorem remove_subscriber_noop root subscriber_id topic_list :
  walk root topic_list = None
  ∨ (∃ node, walk root topic_list = Some node ∧ subscriber_id ∉ subscribers node) →
  remove_subscriber root subscriber_id topic_list = root.
Proof.
  revert root. induction topic_list as [|topic rest IH]; intros root Hcase; simpl in *.
  - destruct Hcase as [[=]|(node & [= <-] & Hnotin)].
    destruct root as [d s]. simpl in *. f_equal.
    apply set_eq. intros x. rewrite elem_of_difference, elem_of_singleton.
    split; [tauto|]. intros Hx. split; [done|]. by intros ->.
  - destruct (children root !! topic) as [child|] eqn:Hchild; [|done].
    rewrite (IH child Hcase), insert_id by done. by destruct root.
Qed.

Lemma remove_subscriber_noop_witness :
  remove_subscriber example_tree "sub1" ["nytimes"; "uk"; "editorial"] = example_tree
  ∧ remove_subscriber example_tree "sub2" ["nytimes"; "us"; "editorial"] = example_tree.
Proof.
  split.
  - apply (remove_subscriber_noop example_tree "sub1" ["nytimes"; "uk"; "editorial"]).
    left. vm_compute. reflexivity.
  - apply (remove_subscriber_noop example_tree "sub2" ["nytimes"; "us"; "editorial"]).
    right. exists (mkNode ∅ {["sub1"]}). split; [vm_compute; reflexivity|].
    simpl. intros [=]%elem_of_singleton.
Defined.

(** C8.  Removal deletes no node: along every path the tree after
    [remove_subscriber] has a node exactly when the tree before has one, with
    the same keys of children, and with the same subscribers except that at
    the end of the removal path the id is discarded. *)
Theorem remove_subscriber_keeps_nodes root subscriber_id topic_list path :
  (λ node, (dom (children node), subscribers node))
    <$> walk (remove_subscriber root subscriber_id topic_list) path
  = (λ node, (dom (children node),
              if decide (path = topic_list)
              then subscribers node ∖ {[subscriber_id]}
              else subscribers node))
    <$> walk root path.
Proof.
  revert root path. induction topic_list as [|topic rest IH]; intros root path.
  - destruct path as [|key path]; [done|].
    simpl. by destruct (children root !! key).
  - cbn [remove_subscriber].
    destruct (children root !! topic) as [child|] eqn:Hchild.
    + destruct path as [|key path].
      * simpl. by rewrite dom_insert_lookup_L.
      * cbn [walk children]. destruct (decide (key = topic)) as [->|Hne].
        -- rewrite lookup_insert_eq, Hchild, IH.
           destruct (decide (path = rest)) as [->|Hp].
           ++ destruct (decide (topic :: rest = topic :: rest)); done.
           ++ destruct (decide (topic :: path = topic :: rest)) as [[=]|_]; done.
        -- rewrite lookup_insert_ne by done.
           destruct (decide (key :: path = topic :: rest)) as [[=]|_]; done.
    + destruct (decide (path = topic :: rest)) as [->|Hp]; [|done].
      simpl. by rewrite Hchild.
Qed.

(** ** Termination and the calls of get_subscribers *)

Section fuel.
Implicit Types (d : gmap string TreeNode).

Lemma union_children_opt_Some (f : TreeNode → option (gset string))
    (g : TreeNode → gset string) d :
  map_Forall (λ _ child, f child = Some (g child)) d →
  union_children_opt f d = Some (union_children g d).
Proof.
  unfold union_children_opt, union_children.
  induction d as [|key child d Hnone Hfirst IH] using map_first_key_ind; intros Hall.
  - by rewrite !map_fold_empty.
  - rewrite !map_fold_insert_first_key by done.
    rewrite IH by (by eapply map_Forall_insert_1_2).
    simpl. by rewrite (map_Forall_insert_1_1 _ _ _ _ Hall).
Qed.

(** A call stack of the height of the tree plus the length of the pattern
    is deep enough. *)
Lemma get_subscribers_fuel_enough root :
  ∀ topic_list fuel,
    height root + length topic_list ≤ fuel →
    get_subscribers_fuel fuel root topic_list = Some (get_subscribers root topic_list).
Proof.
  induction root as [root IH] using TreeNode_children_ind.
  assert (Hpos : 0 < height root) by (destruct root; simpl; lia).
  induction topic_list as [|head tail IHp]; intros [|fuel] Hfuel; simpl in Hfuel;
    try lia; rewrite get_subscribers_unfold; cbn [get_subscribers_fuel]; [done|].
  destruct (decide (head = "*")) as [->|H1].
  { apply union_children_opt_Some. intros key child Hchild. simpl.
    apply (IH key child Hchild). apply height_child in Hchild. lia. }
  destruct (decide (head = "**")) as [->|H2].
  { rewrite IHp by lia. simpl.
    rewrite (union_children_opt_Some _
               (λ child, get_subscribers child ("**" :: tail))); [done|].
    intros key child Hchild. simpl.
    apply (IH key child Hchild). apply height_child in Hchild. simpl. lia. }
  destruct (children root !! head) as [child|] eqn:Hchild; [|done].
  apply (IH head child Hchild). apply height_child in Hchild. lia.
Qed.
End fuel.

Section call_trace.
Implicit Types (d : gmap string TreeNode) (here q : list string)
  (e : list string * list string).

Lemma concat_children_spec
    (f : string → TreeNode → list (list string * list string)) d :
  (∀ e, e ∈ concat_children f d ↔
        ∃ key child, d !! key = Some child ∧ e ∈ f key child)
  ∧ ((∀ key child, d !! key = Some child → NoDup (f key child)) →
     (∀ key1 child1 key2 child2 e,
        d !! key1 = Some child1 → d !! key2 = Some child2 →
        e ∈ f key1 child1 → e ∈ f key2 child2 → key1 = key2) →
     NoDup (concat_children f d)).
Proof.
  unfold concat_children.
  apply (map_fold_weak_ind (λ r m,
    (∀ e, e ∈ r ↔ ∃ key child, m !! key = Some child ∧ e ∈ f key child)
    ∧ ((∀ key child, m !! key = Some child → NoDup (f key child)) →
       (∀ key1 child1 key2 child2 e,
          m !! key1 = Some child1 → m !! key2 = Some child2 →
          e ∈ f key1 child1 → e ∈ f key2 child2 → key1 = key2) →
       NoDup r))).
  - split; [|constructor]. intros e. split; [by intros ?%elem_of_nil|].
    intros (k & c & Hk & _). by rewrite lookup_empty in Hk.
  - intros i c m r Hi [IHin IHnd].
    assert (Hin : ∀ e, e ∈ r ++ f i c ↔
              ∃ key child, <[i:=c]> m !! key = Some child ∧ e ∈ f key child).
    { intros e. rewrite elem_of_app, IHin. split.
      - intros [(k & c' & Hk & He)|He].
        + exists k, c'. split; [|done].
          rewrite lookup_insert_ne; [done|]. intros ->. congruence.
        + exists i, c. by rewrite lookup_insert_eq.
      - intros (k & c' & Hk & He). destruct (decide (i = k)) as [->|Hne].
        + rewrite lookup_insert_eq in Hk. right. congruence.
        + rewrite lookup_insert_ne in Hk by done. left. eauto. }
    split; [done|]. intros Hnd Hdisj.
    assert (Hsub : ∀ key child, m !! key = Some child →
              <[i:=c]> m !! key = Some child).
    { intros k c' Hk. rewrite lookup_insert_ne; [done|]. intros ->. congruence. }
    apply NoDup_app. split_and!.
    + apply IHnd; [by eauto|]. intros k1 c1 k2 c2 e H1 H2. eauto.
    + intros e (k & c' & Hk & He)%IHin Hic.
      assert (k = i) as ->; [|congruence].
      eapply (Hdisj k c' i c e); eauto. apply lookup_insert_eq.
    + apply Hnd. apply lookup_insert_eq.
Qed.

Lemma elem_of_concat_children
    (f : string → TreeNode → list (list string * list string)) d e :
  e ∈ concat_children f d ↔ ∃ key child, d !! key = Some child ∧ e ∈ f key child.
Proof. apply concat_children_spec. Qed.

Lemma NoDup_concat_children
    (f : string → TreeNode → list (list string * list string)) d :
  (∀ key child, d !! key = Some child → NoDup (f key child)) →
  (∀ key1 child1 key2 child2 e,
     d !! key1 = Some child1 → d !! key2 = Some child2 →
     e ∈ f key1 child1 → e ∈ f key2 child2 → key1 = key2) →
  NoDup (concat_children f d).
Proof. apply concat_children_spec. Qed.

(** The body of [get_subscribers] again, as the list of its calls. *)
Lemma calls_unfold root here topic_list :
  calls root here topic_list
  = (here, topic_list) ::
    match topic_list with
    | [] => []
    | head :: tail =>
        if decide (head = "*") then
          concat_children (λ key child, calls child (here ++ [key]) tail) (children root)
        else if decide (head = "**") then
          calls root here tail
          ++ concat_children (λ key child, calls child (here ++ [key]) topic_list)
               (children root)
        else
          match children root !! head with
          | Some child => calls child (here ++ [head]) tail
          | None => []
          end
    end.
Proof.
  destruct root as [d s]. destruct topic_list as [|head tail]; [done|].
  simpl. f_equal.
  destruct (decide (head = "*")); [done|]. destruct (decide (head = "**")); [done|].
  rewrite lookup_fmap. by destruct (d !! head).
Qed.

Lemma multi_count_cons head tail :
  multi_count (head :: tail)
  = (if decide (head = "**") then 1 else 0) + multi_count tail.
Proof.
  unfold multi_count. rewrite filter_cons.
  by destruct (decide (head = "**")).
Qed.

Lemma prefix_snoc_inj here key1 key2 q :
  here ++ [key1] `prefix_of` q → here ++ [key2] `prefix_of` q → key1 = key2.
Proof.
  intros [r1 ->] [r2 Heq]. rewrite <- !(assoc_L (++)) in Heq.
  apply (inj (app here)) in Heq. by injection Heq.
Qed.
End call_trace.

Section call_invariants.
Implicit Types (here q s : list string).

(** Every call below [get_subscribers(root, topic_list)] is on a node at or
    below [root], with a pattern no longer than [topic_list], and is at
    least as many levels down as tokens other than ["**"] were consumed. *)
Lemma calls_bounds root :
  ∀ here topic_list q s,
    (q, s) ∈ calls root here topic_list →
    here `prefix_of` q
    ∧ length s ≤ length topic_list
    ∧ length here + length topic_list + multi_count s
      ≤ length q + length s + multi_count topic_list.
Proof.
  induction root as [root IH] using TreeNode_children_ind.
  intros here topic_list. induction topic_list as [|head tail IHp];
    intros q s; rewrite calls_unfold; intros [[= -> ->]|Hin]%elem_of_cons;
    try done; [by apply elem_of_nil in Hin|].
  rewrite multi_count_cons. simpl length.
  assert (Hchild : ∀ key child pat,
            children root !! key = Some child →
            (q, s) ∈ calls child (here ++ [key]) pat →
            here `prefix_of` q
            ∧ length s ≤ length pat
            ∧ length here + 1 + length pat + multi_count s
              ≤ length q + length s + multi_count pat).
  { intros key child pat Hk Hq.
    destruct (IH key child Hk _ _ _ _ Hq) as (Hpre & Hlen & Hlev).
    rewrite length_app in Hlev. simpl in Hlev.
    split; [by eapply prefix_app_l|]. split; [done|lia]. }
  destruct (decide (head = "*")) as [->|H1].
  { apply elem_of_concat_children in Hin as (key & child & Hk & Hq).
    destruct (Hchild key child tail Hk Hq) as (? & ? & ?).
    rewrite decide_False by done. split_and!; [done|lia|lia]. }
  destruct (decide (head = "**")) as [->|H2].
  { apply elem_of_app in Hin as [Hq|Hin].
    - destruct (IHp q s Hq) as (? & ? & ?). split_and!; [done|lia|lia].
    - apply elem_of_concat_children in Hin as (key & child & Hk & Hq).
      destruct (Hchild key child _ Hk Hq) as (? & Hlen & Hlev).
      rewrite multi_count_cons in Hlev. simpl in Hlen, Hlev.
      split_and!; [done|lia|lia]. }
  destruct (children root !! head) as [child|] eqn:Hk;
    [|by apply elem_of_nil in Hin].
  destruct (Hchild head child tail Hk Hin) as (? & ? & ?).
  split_and!; [done|lia|lia].
Qed.

(** Without ["**"] every token consumed is one level down. *)
Lemma calls_level root :
  ∀ here topic_list q s,
    multi_count topic_list = 0 →
    (q, s) ∈ calls root here topic_list →
    length q + length s = length here + length topic_list.
Proof.
  induction root as [root IH] using TreeNode_children_ind.
  intros here [|head tail] q s Hmc; rewrite calls_unfold;
    intros [[= -> ->]|Hin]%elem_of_cons; try done;
    [by apply elem_of_nil in Hin|].
  rewrite multi_count_cons in Hmc.
  destruct (decide (head = "**")) as [->|H2]; [simpl in Hmc; lia|].
  simpl in Hmc.
  assert (Hchild : ∀ key child,
            children root !! key = Some child →
            (q, s) ∈ calls child (here ++ [key]) tail →
            length q + length s = length here + length (head :: tail)).
  { intros key child Hk Hq. rewrite (IH key child Hk _ _ _ _ Hmc Hq).
    rewrite length_app. simpl. lia. }
  destruct (decide (head = "*")) as [->|H1].
  { apply elem_of_concat_children in Hin as (key & child & Hk & Hq). eauto. }
  destruct (children root !! head) as [child|] eqn:Hk;
    [eauto|by apply elem_of_nil in Hin].
Qed.

(** With at most one ["**"] in the pattern no call is made twice. *)
Lemma calls_NoDup root :
  ∀ here topic_list,
    multi_count topic_list ≤ 1 → NoDup (calls root here topic_list).
Proof.
  induction root as [root IH] using TreeNode_children_ind.
  intros here topic_list. induction topic_list as [|head tail IHp];
    intros Hmc; rewrite calls_unfold; [repeat constructor; by intros ?%elem_of_nil|].
  assert (Hbelow : ∀ key child pat s,
            children root !! key = Some child →
            (here, s) ∉ calls child (here ++ [key]) pat).
  { intros key child pat s Hk Hq.
    apply calls_bounds in Hq as ([r Hr] & _ & _).
    apply (f_equal length) in Hr. rewrite !length_app in Hr. simpl in Hr. lia. }
  assert (Hkids : ∀ pat, multi_count pat ≤ 1 →
            NoDup (concat_children
                     (λ key child, calls child (here ++ [key]) pat) (children root))).
  { intros pat Hpat. apply NoDup_concat_children.
    - intros key child Hk. by apply (IH key child Hk).
    - intros key1 child1 key2 child2 [q s] _ _ Hq1 Hq2.
      apply calls_bounds in Hq1 as (Hp1 & _). apply calls_bounds in Hq2 as (Hp2 & _).
      by eapply prefix_snoc_inj. }
  rewrite multi_count_cons in Hmc.
  destruct (decide (head = "*")) as [->|H1].
  { rewrite decide_False in Hmc by done. apply NoDup_cons. split; [|by apply Hkids].
    intros (key & child & Hk & Hq)%elem_of_concat_children. by eapply Hbelow. }
  destruct (decide (head = "**")) as [->|H2].
  { assert (Htail : multi_count tail = 0) by lia.
    apply NoDup_cons. split.
    - intros [Hq|Hq]%elem_of_app.
      + apply calls_bounds in Hq as (_ & Hlen & _). simpl in Hlen. lia.
      + apply elem_of_concat_children in Hq as (key & child & Hk & Hq).
        by eapply Hbelow.
    - apply NoDup_app. split_and!.
      + apply IHp. lia.
      + intros [q s] Hzero (key & child & Hk & Hq)%elem_of_concat_children.
        apply calls_level in Hzero; [|done].
        apply calls_bounds in Hq as (_ & _ & Hlev).
        rewrite multi_count_cons, length_app in Hlev. simpl in Hlev. lia.
      + apply Hkids. rewrite multi_count_cons. simpl. lia. }
  apply NoDup_cons. destruct (children root !! head) as [child|] eqn:Hk.
  - split; [by eapply Hbelow|]. apply (IH head child Hk). simpl in Hmc. lia.
  - split; [by intros ?%elem_of_nil|constructor].
Qed.
(** The list of calls is that of [get_subscribers]: the result is made of
    the subscribers of the nodes on which a call with the empty pattern is
    made. *)
Lemma calls_cover root :
  ∀ here topic_list x,
    x ∈ get_subscribers root topic_list ↔
    ∃ path node, (here ++ path, []) ∈ calls root here topic_list
                 ∧ walk root path = Some node ∧ x ∈ subscribers node.
Proof.
  induction root as [root IH] using TreeNode_children_ind.
  assert (Hdown : ∀ key child pat here x,
            children root !! key = Some child →
            x ∈ get_subscribers child pat ↔
            ∃ path node, (here ++ path, []) ∈ calls child (here ++ [key]) pat
                         ∧ walk root path = Some node ∧ x ∈ subscribers node).
  { intros key child pat here x Hk. rewrite (IH key child Hk (here ++ [key])). split.
    - intros (path & node & Hin & Hw & Hx). exists (key :: path), node.
      rewrite <- (assoc_L (++)) in Hin. simpl. by rewrite Hk.
    - intros (path & node & Hin & Hw & Hx).
      destruct (calls_bounds _ _ _ _ _ Hin) as ([r Hr] & _).
      rewrite <- !(assoc_L (++)) in Hr. apply (inj (app here)) in Hr.
      simpl in Hr. subst path. simpl in Hw. rewrite Hk in Hw.
      exists r, node. by rewrite <- (assoc_L (++)). }
  intros here topic_list. induction topic_list as [|head tail IHp]; intros x;
    rewrite get_subscribers_unfold, calls_unfold.
  - split.
    + intros Hx. exists [], root. rewrite (right_id_L [] (++)).
      split; [apply list_elem_of_here|done].
    + intros (path & node & Hin & Hw & Hx).
      apply elem_of_cons in Hin as [[= Hp]|Hin]; [|by apply elem_of_nil in Hin].
      rewrite <- (right_id_L [] (++) here) in Hp at 2.
      apply (inj (app here)) in Hp. subst path. by injection Hw as ->.
  - setoid_rewrite elem_of_cons.
    destruct (decide (head = "*")) as [->|H1].
    { rewrite elem_of_union_children. split.
      - intros (key & child & Hk & Hx).
        apply (Hdown key child tail here x Hk) in Hx as (path & node & Hin & Hw & Hx).
        exists path, node. split; [right|done].
        apply elem_of_concat_children. eauto.
      - intros (path & node & [[=]|Hin] & Hw & Hx).
        apply elem_of_concat_children in Hin as (key & child & Hk & Hin).
        exists key, child. split; [done|].
        apply (Hdown key child tail here x Hk). eauto. }
    destruct (decide (head = "**")) as [->|H2].
    { rewrite elem_of_union, elem_of_union_children, IHp. split.
      - intros [(path & node & Hin & Hw & Hx)|(key & child & Hk & Hx)].
        + exists path, node. split; [right|done]. apply elem_of_app. by left.
        + apply (Hdown key child _ here x Hk) in Hx as (path & node & Hin & Hw & Hx).
          exists path, node. split; [right|done]. apply elem_of_app. right.
          apply elem_of_concat_children. eauto.
      - intros (path & node & [[=]|Hin] & Hw & Hx).
        apply elem_of_app in Hin as [Hin|Hin]; [left; eauto|right].
        apply elem_of_concat_children in Hin as (key & child & Hk & Hin).
        exists key, child. split; [done|].
        apply (Hdown key child _ here x Hk). eauto. }
    destruct (children root !! head) as [child|] eqn:Hk.
    + rewrite (Hdown head child tail here x Hk). split.
      * intros (path & node & Hin & Hw & Hx). exists path, node. eauto.
      * intros (path & node & [[=]|Hin] & Hw & Hx). eauto.
    + split; [by intros ?%elem_of_empty|].
      intros (path & node & [[=]|Hin] & _). by apply elem_of_nil in Hin.
Qed.
End call_invariants.

(** C3 as stated fails: with two ["**"] tokens a pair of node and remaining
    pattern is evaluated twice.  On the tree with the single child ["a"] the
    query [["**"; "**"]] reaches the call on ["a"] with [["**"]] once from the
    zero-level branch at the root followed by a descent, and once from the
    descent at the root followed by the zero-level branch at ["a"]. *)
Lemma calls_repeated_with_two_multi :
  "**" ∈ ["**"; "**"]
  ∧ ¬ NoDup (calls (add_subscriber new_node "s" ["a"]) [] ["**"; "**"]).
Proof.
  split; [apply list_elem_of_here|]. intros Hnd.
  assert (Hcalls : calls (add_subscriber new_node "s" ["a"]) [] ["**"; "**"]
            = [([], ["**"; "**"]); ([], ["**"]); ([], []);
               (["a"], ["**"]); (["a"], []); (["a"], ["**"; "**"]);
               (["a"], ["**"]); (["a"], [])])
    by (vm_compute; reflexivity).
  rewrite Hcalls in Hnd.
  do 3 apply NoDup_cons in Hnd as [_ Hnd].
  apply NoDup_cons in Hnd as [Hnotin _]. apply Hnotin.
  do 2 apply list_elem_of_further. apply list_elem_of_here.
Qed.

(** C3, amended.  [get_subscribers] terminates on every tree and pattern,
    within a call stack of the height of the tree plus the length of the
    pattern, and when the pattern has at most one ["**"] token no pair of node
    and remaining pattern is evaluated more than once. *)
Theorem get_subscribers_terminates root topic_list :
  get_subscribers_fuel (height root + length topic_list) root topic_list
  = Some (get_subscribers root topic_list)
  ∧ (multi_count topic_list ≤ 1 → NoDup (calls root [] topic_list)).
Proof.
  split; [by apply get_subscribers_fuel_enough|apply calls_NoDup].
Qed.

Lemma get_subscribers_terminates_witness :
  get_subscribers_fuel 6 example_tree ["nytimes"; "**"]
  = Some (get_subscribers example_tree ["nytimes"; "**"])
  ∧ NoDup (calls example_tree [] ["nytimes"; "**"]).
Proof.
  destruct (get_subscribers_terminates example_tree ["nytimes"; "**"]) as [Hrun Honce].
  split; [exact Hrun|]. apply Honce. vm_compute. lia.
Defined.

(** * Further properties of the operations *)

(** ** What a query returns *)

Lemma matches_cons head tail path :
  matches (head :: tail) path
  = if decide (head = "*") then
      match path with
      | [] => false
      | _ :: rest => matches tail rest
      end
    else if decide (head = "**") then
      matches tail path
      || match path with
         | [] => false
         | _ :: rest => matches (head :: tail) rest
         end
    else
      match path with
      | [] => false
      | key :: rest => bool_decide (key = head) && matches tail rest
      end.
Proof. by destruct path. Qed.

Lemma walk_cons_Some root key rest node :
  walk root (key :: rest) = Some node ↔
  ∃ child, children root !! key = Some child ∧ walk child rest = Some node.
Proof.
  simpl. destruct (children root !! key) as [child|]; split.
  - intros Hw. by exists child.
  - by intros (? & [= <-] & Hw).
  - done.
  - by intros (? & [=] & _).
Qed.

(** The subscribers returned by a query are those of the nodes whose path
    from the queried node the pattern selects. *)
Lemma elem_of_get_subscribers root :
  ∀ topic_list x,
    x ∈ get_subscribers root topic_list ↔
    ∃ path node, matches topic_list path = true
                 ∧ walk root path = Some node ∧ x ∈ subscribers node.
Proof.
  induction root as [root IH] using TreeNode_children_ind.
  induction topic_list as [|head tail IHp]; intros x; rewrite get_subscribers_unfold.
  { split.
    - intros Hx. by exists [], root.
    - intros (path & node & Hm & Hw & Hx). simpl in Hm.
      apply bool_decide_eq_true in Hm as ->. by injection Hw as ->. }
  setoid_rewrite matches_cons.
  destruct (decide (head = "*")) as [->|H1].
  { rewrite elem_of_union_children. split.
    - intros (key & child & Hk & Hx).
      apply (IH key child Hk) in Hx as (path & node & Hm & Hw & Hx).
      exists (key :: path), node. split_and!; [done| |done].
      apply walk_cons_Some. eauto.
    - intros ([|key path] & node & Hm & Hw & Hx); [done|].
      apply walk_cons_Some in Hw as (child & Hk & Hw).
      exists key, child. split; [done|]. apply (IH key child Hk). eauto. }
  destruct (decide (head = "**")) as [->|H2].
  { rewrite elem_of_union, elem_of_union_children, IHp. split.
    - intros [(path & node & Hm & Hw & Hx)|(key & child & Hk & Hx)].
      + exists path, node. by rewrite Hm.
      + apply (IH key child Hk) in Hx as (path & node & Hm & Hw & Hx).
        exists (key :: path), node. split_and!; [|by apply walk_cons_Some; eauto|done].
        rewrite Hm. apply orb_true_r.
    - intros (path & node & Hm & Hw & Hx).
      apply orb_true_iff in Hm as [Hm|Hm]; [left; eauto|right].
      destruct path as [|key path]; [done|].
      apply walk_cons_Some in Hw as (child & Hk & Hw).
      exists key, child. split; [done|]. apply (IH key child Hk). eauto. }
  split.
  - destruct (children root !! head) as [child|] eqn:Hk; [|by intros ?%elem_of_empty].
    intros (path & node & Hm & Hw & Hx)%(IH head child Hk).
    exists (head :: path), node. split_and!; [|by apply walk_cons_Some; eauto|done].
    rewrite Hm. by rewrite bool_decide_eq_true_2.
  - intros ([|key path] & node & Hm & Hw & Hx); [done|].
    apply andb_true_iff in Hm as [->%bool_decide_eq_true Hm].
    apply walk_cons_Some in Hw as (child & Hk & Hw). rewrite Hk.
    apply (IH head child Hk). eauto.
Qed.

Lemma elem_of_get_subscribers_recursive root :
  ∀ x, x ∈ get_subscribers_recursive root ↔
       ∃ path node, walk root path = Some node ∧ x ∈ subscribers node.
Proof.
  induction root as [root IH] using TreeNode_children_ind. intros x.
  destruct root as [d s]. cbn [get_subscribers_recursive].
  cbn [get_subscribers_recursive children subscribers] in *.
  rewrite elem_of_union, elem_of_union_children. split.
  - intros [Hx|(key & child & Hk & Hx)]; [by exists [], (mkNode d s)|].
    apply (IH key child Hk) in Hx as (path & node & Hw & Hx).
    exists (key :: path), node. split; [|done]. apply walk_cons_Some. eauto.
  - intros ([|key path] & node & Hw & Hx).
    + injection Hw as <-. by left.
    + apply walk_cons_Some in Hw as (child & Hk & Hw). right.
      exists key, child. split; [done|]. apply (IH key child Hk). eauto.
Qed.

(** X1.  A query returns exactly the subscribers registered at the nodes
    whose path from the queried node is selected by the pattern. *)
Theorem get_subscribers_selects root topic_list x :
  x ∈ get_subscribers root topic_list ↔
  ∃ path node, matches topic_list path = true
               ∧ walk root path = Some node ∧ x ∈ subscribers node.
Proof. apply elem_of_get_subscribers. Qed.

(** X2.  [get_subscribers_recursive] returns exactly the subscribers of the
    node and of all the nodes below it. *)
Theorem get_subscribers_recursive_collects root x :
  x ∈ get_subscribers_recursive root ↔
  ∃ path node, walk root path = Some node ∧ x ∈ subscribers node.
Proof. apply elem_of_get_subscribers_recursive. Qed.

(** X3.  Whatever the pattern, a query returns only subscribers found at or
    below the queried node. *)
Theorem get_subscribers_within_subtree root topic_list :
  get_subscribers root topic_list ⊆ get_subscribers_recursive root.
Proof.
  intros x (path & node & _ & Hw & Hx)%elem_of_get_subscribers.
  apply elem_of_get_subscribers_recursive. eauto.
Qed.

(** ** What a registration changes *)

Lemma walk_new_node path :
  subscribers <$> walk new_node path = if decide (path = []) then Some ∅ else None.
Proof. by destruct path. Qed.

(** The subscribers found along every path after [add_subscriber]: along the
    registration path every node exists afterwards, a node created on the way
    has no subscriber, the last one gains the id; off the path nothing
    changes. *)
Lemma walk_add_subscriber_subscribers root subscriber_id topic_list :
  ∀ path,
    subscribers <$> walk (add_subscriber root subscriber_id topic_list) path
    = if decide (path `prefix_of` topic_list) then
        Some (default ∅ (subscribers <$> walk root path)
              ∪ (if decide (path = topic_list) then {[subscriber_id]} else ∅))
      else subscribers <$> walk root path.
Proof.
  revert root. induction topic_list as [|topic rest IH]; intros root path.
  - destruct path as [|key path]; [done|].
    destruct (decide (key :: path `prefix_of` [])) as [Hpre|_]; [|done].
    by apply prefix_nil_not in Hpre.
  - destruct path as [|key path].
    + destruct (decide ([] `prefix_of` topic :: rest)) as [_|Hpre];
        [|by destruct Hpre; apply prefix_nil].
      simpl. by rewrite (right_id_L ∅ (∪)).
    + cbn [add_subscriber walk children].
      destruct (decide (key = topic)) as [->|Hne].
      * rewrite lookup_insert_eq, IH.
        assert (Hold : default ∅ (subscribers <$> walk
                         (default new_node (children root !! topic)) path)
                       = default ∅ (subscribers <$>
                           match children root !! topic with
                           | Some child => walk child path
                           | None => None
                           end)).
        { destruct (children root !! topic) as [child|]; [done|]. simpl.
          rewrite walk_new_node. by destruct (decide (path = [])). }
        destruct (decide (path `prefix_of` rest)) as [Hpre|Hpre];
          destruct (decide (topic :: path `prefix_of` topic :: rest)) as [Hpre'|Hpre'].
        -- rewrite Hold. f_equal. f_equal.
           destruct (decide (topic :: path = topic :: rest)) as [Hp'|Hp'].
           ++ injection Hp' as ->. by rewrite decide_True.
           ++ rewrite decide_False; [done|]. by intros ->.
        -- destruct Hpre'. by apply prefix_cons.
        -- destruct Hpre. by apply prefix_cons_inv_2 in Hpre'.
        -- destruct (children root !! topic) as [child|]; [done|]. simpl.
           rewrite walk_new_node. rewrite decide_False; [done|].
           intros ->. apply Hpre, prefix_nil.
      * rewrite lookup_insert_ne by done.
        destruct (decide (key :: path `prefix_of` topic :: rest)) as [Hpre|_]; [|done].
        by apply prefix_cons_inv_1 in Hpre.
Qed.

Lemma walk_add_subscriber_mono root subscriber_id topic_list path node :
  walk root path = Some node →
  ∃ node', walk (add_subscriber root subscriber_id topic_list) path = Some node'
           ∧ subscribers node ⊆ subscribers node'.
Proof.
  intros Hw.
  pose proof (walk_add_subscriber_subscribers root subscriber_id topic_list path) as Hs.
  rewrite Hw in Hs. simpl in Hs.
  destruct (walk (add_subscriber root subscriber_id topic_list) path) as [node'|];
    [|by destruct (decide (path `prefix_of` topic_list))].
  exists node'. split; [done|]. simpl in Hs.
  destruct (decide (path `prefix_of` topic_list)); injection Hs as ->; set_solver.
Qed.

Lemma elem_of_get_subscribers_add root subscriber_id topic_list pattern x :
  x ∈ get_subscribers (add_subscriber root subscriber_id topic_list) pattern ↔
  x ∈ get_subscribers root pattern
  ∨ (x = subscriber_id ∧ matches pattern topic_list = true).
Proof.
  rewrite !elem_of_get_subscribers. split.
  - intros (path & node' & Hm & Hw & Hx).
    pose proof (walk_add_subscriber_subscribers root subscriber_id topic_list path) as Hs.
    rewrite Hw in Hs. simpl in Hs.
    destruct (walk root path) as [node|] eqn:Hold; simpl in Hs.
    + destruct (decide (path `prefix_of` topic_list)); injection Hs as Hs;
        rewrite Hs in Hx; [|by left; eauto].
      apply elem_of_union in Hx as [Hx|Hx]; [by left; eauto|].
      destruct (decide (path = topic_list)) as [->|]; [|by apply elem_of_empty in Hx].
      apply elem_of_singleton in Hx. by right.
    + destruct (decide (path `prefix_of` topic_list)); [|done]. injection Hs as Hs.
      rewrite Hs in Hx. apply elem_of_union in Hx as [Hx|Hx];
        [by apply elem_of_empty in Hx|].
      destruct (decide (path = topic_list)) as [->|]; [|by apply elem_of_empty in Hx].
      apply elem_of_singleton in Hx. by right.
  - intros [(path & node & Hm & Hw & Hx)|[-> Hm]].
    + destruct (walk_add_subscriber_mono root subscriber_id topic_list path node Hw)
        as (node' & Hw' & Hsub).
      exists path, node'. split_and!; [done|done|]. by apply Hsub.
    + destruct (walk_add_subscriber root subscriber_id topic_list) as (node & Hw & Hx).
      eauto.
Qed.

(** X4.  After [add_subscriber] the nodes along the registration path all
    exist, those created on the way without subscribers and the last one with
    the id added to its set; every node off the path has the subscribers it
    had, and no node appears off the path. *)
Theorem add_subscriber_effect root subscriber_id topic_list path :
  subscribers <$> walk (add_subscriber root subscriber_id topic_list) path
  = if decide (path `prefix_of` topic_list) then
      Some (default ∅ (subscribers <$> walk root path)
            ∪ (if decide (path = topic_list) then {[subscriber_id]} else ∅))
    else subscribers <$> walk root path.
Proof. apply walk_add_subscriber_subscribers. Qed.

(** X5.  Registering an id on a path adds that id to the result of exactly
    the queries whose pattern selects the path, and changes no result
    otherwise. *)
Theorem get_subscribers_after_add root subscriber_id topic_list pattern x :
  x ∈ get_subscribers (add_subscriber root subscriber_id topic_list) pattern ↔
  x ∈ get_subscribers root pattern
  ∨ (x = subscriber_id ∧ matches pattern topic_list = true).
Proof. apply elem_of_get_subscribers_add. Qed.

(** ** What a removal changes *)

Section subscriber_sets.
Implicit Types (s : gset string) (i : string).

Lemma discard_add s i : i ∉ s → (s ∪ {[i]}) ∖ {[i]} = s.
Proof.
  intros Hi. apply set_eq. intros x.
  rewrite elem_of_difference, elem_of_union, elem_of_singleton.
  split; [intros [[?| ->] ?]; done|]. intros Hx. split; [by left|]. by intros ->.
Qed.

Lemma add_discard s i : i ∈ s → s ∖ {[i]} ∪ {[i]} = s.
Proof.
  intros Hi. apply set_eq. intros x.
  rewrite elem_of_union, elem_of_difference, elem_of_singleton.
  split; [intros [[? _]| ->]; done|].
  intros Hx. destruct (decide (x = i)); [by right|by left].
Qed.

Lemma discard_discard s i : s ∖ {[i]} ∖ {[i]} = s ∖ {[i]}.
Proof.
  apply set_eq. intros x. rewrite !elem_of_difference. tauto.
Qed.

Lemma discard_empty i : (∅ : gset string) ∖ {[i]} = ∅.
Proof.
  apply set_eq. intros x. rewrite elem_of_difference.
  split; [by intros [? _]|by intros ?%elem_of_empty].
Qed.
End subscriber_sets.

Lemma walk_remove_subscriber_subscribers root subscriber_id topic_list :
  ∀ path,
    subscribers <$> walk (remove_subscriber root subscriber_id topic_list) path
    = (λ node, if decide (path = topic_list)
               then subscribers node ∖ {[subscriber_id]}
               else subscribers node) <$> walk root path.
Proof.
  revert root. induction topic_list as [|topic rest IH]; intros root path.
  - destruct path as [|key path]; [done|]. simpl.
    by destruct (children root !! key).
  - cbn [remove_subscriber].
    destruct (children root !! topic) as [child|] eqn:Hchild.
    + destruct path as [|key path]; [done|]. cbn [walk children].
      destruct (decide (key = topic)) as [->|Hne].
      * rewrite lookup_insert_eq, Hchild, IH.
        destruct (decide (topic :: path = topic :: rest)) as [Hp|Hp].
        -- injection Hp as ->. destruct (decide (rest = rest)); done.
        -- destruct (decide (path = rest)) as [->|_]; done.
      * rewrite lookup_insert_ne by done.
        destruct (decide (key :: path = topic :: rest)) as [[=]|_]; done.
    + destruct (decide (path = topic :: rest)) as [->|Hp]; [|done].
      simpl. by rewrite Hchild.
Qed.

Lemma elem_of_get_subscribers_remove root subscriber_id topic_list pattern x :
  x ∈ get_subscribers (remove_subscriber root subscriber_id topic_list) pattern ↔
  ∃ path node, matches pattern path = true ∧ walk root path = Some node
               ∧ x ∈ subscribers node
               ∧ ¬ (path = topic_list ∧ x = subscriber_id).
Proof.
  rewrite elem_of_get_subscribers. split.
  - intros (path & node' & Hm & Hw & Hx).
    pose proof (walk_remove_subscriber_subscribers root subscriber_id topic_list path)
      as Hs.
    rewrite Hw in Hs. destruct (walk root path) as [node|] eqn:Hold; [|done].
    injection Hs as Hs. rewrite Hs in Hx. exists path, node.
    destruct (decide (path = topic_list)) as [Hp|Hp].
    + apply elem_of_difference in Hx as [Hx Hne].
      split_and!; [done|done|done|]. intros [_ ->]. by apply Hne, elem_of_singleton.
    + split_and!; [done|done|done|]. by intros [? _].
  - intros (path & node & Hm & Hw & Hx & Hne).
    pose proof (walk_remove_subscriber_subscribers root subscriber_id topic_list path)
      as Hs.
    rewrite Hw in Hs.
    destruct (walk (remove_subscriber root subscriber_id topic_list) path)
      as [node'|] eqn:Hnew; [|done].
    injection Hs as Hs. exists path, node'. split_and!; [done|done|].
    rewrite Hs. destruct (decide (path = topic_list)) as [Hp|]; [|done].
    apply elem_of_difference. split; [done|].
    intros ->%elem_of_singleton. by apply Hne.
Qed.

Lemma remove_subscriber_new_node subscriber_id topic_list :
  remove_subscriber new_node subscriber_id topic_list = new_node.
Proof.
  destruct topic_list as [|topic rest]; [|done].
  unfold new_node. simpl. f_equal. apply discard_empty.
Qed.

(** X6.  After [remove_subscriber] a query returns what it returned before,
    except that the removed id is no longer contributed by the node at the end
    of the removal path; it is still returned when another selected node
    holds it. *)
Theorem get_subscribers_after_remove root subscriber_id topic_list pattern x :
  x ∈ get_subscribers (remove_subscriber root subscriber_id topic_list) pattern ↔
  ∃ path node, matches pattern path = true ∧ walk root path = Some node
               ∧ x ∈ subscribers node
               ∧ ¬ (path = topic_list ∧ x = subscriber_id).
Proof. apply elem_of_get_subscribers_remove. Qed.

(** X7.  On a path of literal segments, the query with that path after
    [remove_subscriber] returns the former result without the id. *)
Theorem get_subscribers_removed_path root subscriber_id topic_list :
  Forall (λ topic, topic ≠ "*" ∧ topic ≠ "**") topic_list →
  get_subscribers (remove_subscriber root subscriber_id topic_list) topic_list
  = get_subscribers root topic_list ∖ {[subscriber_id]}.
Proof.
  intros Hlit. rewrite !get_subscribers_literal_path by done.
  rewrite walk_remove_subscriber_subscribers.
  destruct (walk root topic_list) as [node|]; simpl.
  - by rewrite decide_True.
  - by rewrite discard_empty.
Qed.

Lemma get_subscribers_removed_path_witness :
  get_subscribers
    (remove_subscriber example_tree "sub1" ["nytimes"; "us"; "editorial"])
    ["nytimes"; "us"; "editorial"]
  = get_subscribers example_tree ["nytimes"; "us"; "editorial"] ∖ {["sub1"]}.
Proof.
  apply get_subscribers_removed_path.
  repeat (constructor; [split; intros [=]|]). constructor.
Defined.

(** X8.  Removing an id right after registering it on a path that existed
    and did not hold it restores the tree. *)
Theorem remove_after_add root subscriber_id topic_list node :
  walk root topic_list = Some node → subscriber_id ∉ subscribers node →
  remove_subscriber (add_subscriber root subscriber_id topic_list)
    subscriber_id topic_list = root.
Proof.
  revert root. induction topic_list as [|topic rest IH]; intros root Hw Hnotin.
  - injection Hw as <-. destruct root as [d s]. simpl in *. f_equal.
    by apply discard_add.
  - apply walk_cons_Some in Hw as (child & Hk & Hw).
    simpl. rewrite Hk. simpl.
    rewrite lookup_insert_eq, insert_insert_eq, (IH child Hw Hnotin).
    rewrite insert_id by done. by destruct root.
Qed.

Lemma remove_after_add_witness :
  remove_subscriber (add_subscriber example_tree "sub9" ["nytimes"; "us"])
    "sub9" ["nytimes"; "us"] = example_tree.
Proof.
  apply (remove_after_add example_tree "sub9" ["nytimes"; "us"]
           (mkNode {[ "editorial" := mkNode ∅ {["sub1"]};
                      "sports" := mkNode ∅ {["sub4"]} ]} ∅)).
  - vm_compute. reflexivity.
  - simpl. apply not_elem_of_empty.
Defined.

(** X9.  Registering again an id that [remove_subscriber] has just taken from
    a node restores the tree. *)
Theorem add_after_remove root subscriber_id topic_list node :
  walk root topic_list = Some node → subscriber_id ∈ subscribers node →
  add_subscriber (remove_subscriber root subscriber_id topic_list)
    subscriber_id topic_list = root.
Proof.
  revert root. induction topic_list as [|topic rest IH]; intros root Hw Hin.
  - injection Hw as <-. destruct root as [d s]. simpl in *. f_equal.
    by apply add_discard.
  - apply walk_cons_Some in Hw as (child & Hk & Hw).
    simpl. rewrite Hk. simpl.
    rewrite lookup_insert_eq, insert_insert_eq. simpl.
    rewrite (IH child Hw Hin), insert_id by done. by destruct root.
Qed.

Lemma add_after_remove_witness :
  add_subscriber
    (remove_subscriber example_tree "sub1" ["nytimes"; "us"; "editorial"])
    "sub1" ["nytimes"; "us"; "editorial"] = example_tree.
Proof.
  apply (add_after_remove example_tree "sub1" ["nytimes"; "us"; "editorial"]
           (mkNode ∅ {["sub1"]})).
  - vm_compute. reflexivity.
  - simpl. by apply elem_of_singleton.
Defined.

(** X10.  Removing twice is removing once. *)
Theorem remove_subscriber_idempotent root subscriber_id topic_list :
  remove_subscriber (remove_subscriber root subscriber_id topic_list)
    subscriber_id topic_list
  = remove_subscriber root subscriber_id topic_list.
Proof.
  revert root. induction topic_list as [|topic rest IH]; intros root.
  - simpl. f_equal. apply discard_discard.
  - simpl. destruct (children root !! topic) as [child|] eqn:Hk.
    + simpl. by rewrite lookup_insert_eq, insert_insert_eq, IH.
    + simpl. by rewrite Hk.
Qed.

(** ** How registrations and removals compose *)

Lemma discard_comm (s : gset string) (i j : string) :
  s ∖ {[i]} ∖ {[j]} = s ∖ {[j]} ∖ {[i]}.
Proof. apply set_eq. intros x. rewrite !elem_of_difference. tauto. Qed.

Lemma add_discard_ne (s : gset string) (i j : string) :
  i ≠ j → (s ∪ {[i]}) ∖ {[j]} = s ∖ {[j]} ∪ {[i]}.
Proof.
  intros Hne. apply set_eq. intros x.
  rewrite !elem_of_difference, !elem_of_union, elem_of_difference, !elem_of_singleton.
  split; [tauto|]. intros [[? ?]| ->]; [tauto|]. split; [by right|done].
Qed.

(** X11.  Two removals commute. *)
Theorem remove_subscriber_comm root id1 path1 id2 path2 :
  remove_subscriber (remove_subscriber root id1 path1) id2 path2
  = remove_subscriber (remove_subscriber root id2 path2) id1 path1.
Proof.
  revert root path2. induction path1 as [|a p IH]; intros root [|b q].
  - simpl. f_equal. apply discard_comm.
  - simpl. by destruct (children root !! b).
  - simpl. by destruct (children root !! a).
  - destruct (decide (a = b)) as [->|Hne].
    + simpl. destruct (children root !! b) as [child|] eqn:Hk; simpl.
      * rewrite !lookup_insert_eq, !insert_insert_eq. by rewrite IH.
      * by rewrite Hk.
    + simpl. destruct (children root !! a) as [ca|] eqn:Ha;
        destruct (children root !! b) as [cb|] eqn:Hb; simpl;
        rewrite ?lookup_insert_ne by done; rewrite ?Ha, ?Hb; try done.
      f_equal. by apply insert_insert_ne.
Qed.

(** X12.  A registration and a removal that differ in the id or in the path
    commute. *)
Theorem add_remove_comm root id1 path1 id2 path2 :
  id1 ≠ id2 ∨ path1 ≠ path2 →
  remove_subscriber (add_subscriber root id1 path1) id2 path2
  = add_subscriber (remove_subscriber root id2 path2) id1 path1.
Proof.
  revert root path2. induction path1 as [|a p IH]; intros root [|b q] Hdiff.
  - simpl. f_equal. apply add_discard_ne. by destruct Hdiff.
  - simpl. by destruct (children root !! b).
  - done.
  - destruct (decide (a = b)) as [->|Hne].
    + assert (Hdiff' : id1 ≠ id2 ∨ p ≠ q).
      { destruct Hdiff as [?|Hpq]; [by left|right]. by intros ->. }
      simpl. rewrite lookup_insert_eq, insert_insert_eq.
      destruct (children root !! b) as [child|] eqn:Hk; simpl.
      * rewrite lookup_insert_eq, insert_insert_eq. simpl. by rewrite IH.
      * rewrite Hk. simpl. by rewrite IH, remove_subscriber_new_node.
    + simpl. rewrite lookup_insert_ne by done.
      destruct (children root !! b) as [cb|] eqn:Hb; simpl; [|done].
      rewrite lookup_insert_ne by done. f_equal. by apply insert_insert_ne.
Qed.

Lemma add_remove_comm_witness :
  remove_subscriber (add_subscriber example_tree "sub1" ["nytimes"; "uk"])
    "sub1" ["nytimes"; "us"; "editorial"]
  = add_subscriber
      (remove_subscriber example_tree "sub1" ["nytimes"; "us"; "editorial"])
      "sub1" ["nytimes"; "uk"].
Proof. apply add_remove_comm. right. intros [=]. Defined.

(** ** add_subscriber_multi *)

Lemma matches_refl topic_list : matches topic_list topic_list = true.
Proof.
  induction topic_list as [|head tail IH]; [done|].
  rewrite matches_cons.
  destruct (decide (head = "*")); [done|].
  destruct (decide (head = "**")) as [->|].
  - rewrite (matches_cons "**" tail tail). simpl.
    rewrite IH. apply orb_true_r.
  - by rewrite bool_decide_eq_true_2.
Qed.

Lemma elem_of_get_subscribers_multi root subscriber_id topics pattern x :
  x ∈ get_subscribers (add_subscriber_multi root subscriber_id topics) pattern ↔
  x ∈ get_subscribers root pattern
  ∨ (x = subscriber_id
     ∧ ∃ topic_list, topic_list ∈ topics ∧ matches pattern topic_list = true).
Proof.
  unfold add_subscriber_multi. revert root.
  induction topics as [|t ts IH]; intros root; simpl.
  - split; [by left|]. intros [?|(_ & p & ?%elem_of_nil & _)]; done.
  - rewrite IH, elem_of_get_subscribers_add. split.
    + intros [[?|[-> Hm]]|(-> & p & Hp & Hm)].
      * by left.
      * right. split; [done|]. exists t. split; [apply list_elem_of_here|done].
      * right. split; [done|]. exists p. split; [by apply list_elem_of_further|done].
    + intros [?|(-> & p & [->|Hp]%elem_of_cons & Hm)].
      * by left; left.
      * by left; right.
      * right. eauto.
Qed.

(** X13.  [add_subscriber_multi] adds the id to the result of exactly the
    queries whose pattern selects one of the given paths, and changes no
    result otherwise; with no path it changes nothing. *)
Theorem get_subscribers_after_multi root subscriber_id topics pattern x :
  x ∈ get_subscribers (add_subscriber_multi root subscriber_id topics) pattern ↔
  x ∈ get_subscribers root pattern
  ∨ (x = subscriber_id
     ∧ ∃ topic_list, topic_list ∈ topics ∧ matches pattern topic_list = true).
Proof. apply elem_of_get_subscribers_multi. Qed.

(** X14.  After [add_subscriber_multi] the id is returned by the query with
    each of the given paths. *)
Theorem add_subscriber_multi_registers root subscriber_id topics topic_list :
  topic_list ∈ topics →
  subscriber_id
  ∈ get_subscribers (add_subscriber_multi root subscriber_id topics) topic_list.
Proof.
  intros Hin. apply elem_of_get_subscribers_multi. right. split; [done|].
  exists topic_list. split; [done|apply matches_refl].
Qed.

Lemma add_subscriber_multi_registers_witness :
  "sub4"
  ∈ get_subscribers
      (add_subscriber_multi new_node "sub4"
         [["nytimes"; "us"; "sports"]; ["washington"; "us"; "politics"]])
      ["washington"; "us"; "politics"].
Proof.
  apply add_subscriber_multi_registers.
  apply list_elem_of_further, list_elem_of_here.
Defined.

(** ** Wildcards *)

(** X15.  Two ["**"] in a row select what one selects. *)
Theorem multi_level_twice root tail :
  get_subscribers root ("**" :: "**" :: tail) = get_subscribers root ("**" :: tail).
Proof.
  induction root as [root IH] using TreeNode_children_ind.
  rewrite (get_subscribers_multi root ("**" :: tail)).
  rewrite (union_children_ext _ (λ child, get_subscribers child ("**" :: tail)))
    by done.
  apply set_eq. intros x. rewrite elem_of_union. split; [|by left].
  intros [Hx|Hx]; [done|].
  rewrite get_subscribers_multi. apply elem_of_union. by right.
Qed.

(** X16.  ["**"] followed by ["*"] and ["*"] followed by ["**"] select the
    same nodes, those at least one level down. *)
Theorem multi_single_swap root tail :
  get_subscribers root ("**" :: "*" :: tail)
  = get_subscribers root ("*" :: "**" :: tail).
Proof.
  induction root as [root IH] using TreeNode_children_ind.
  apply set_eq. intros x.
  rewrite get_subscribers_multi, elem_of_union.
  rewrite (get_subscribers_single root tail), (get_subscribers_single root ("**" :: tail)).
  rewrite !elem_of_union_children. split.
  - intros [(key & child & Hk & Hx)|(key & child & Hk & Hx)]; exists key, child;
      (split; [done|]); rewrite get_subscribers_multi; apply elem_of_union.
    + by left.
    + right. rewrite (IH key child Hk), get_subscribers_single in Hx. done.
  - intros (key & child & Hk & Hx).
    rewrite get_subscribers_multi in Hx. apply elem_of_union in Hx as [Hx|Hx].
    + left. eauto.
    + right. exists key, child. split; [done|].
      by rewrite (IH key child Hk), get_subscribers_single.
Qed.

Lemma walk_height root :
  ∀ path node, walk root path = Some node → length path + height node ≤ height root.
Proof.
  induction root as [root IH] using TreeNode_children_ind.
  intros [|key path] node Hw.
  - by injection Hw as ->.
  - apply walk_cons_Some in Hw as (child & Hk & Hw).
    specialize (IH key child Hk path node Hw).
    apply height_child in Hk. simpl. lia.
Qed.

Lemma matches_length topic_list :
  ∀ path, multi_count topic_list = 0 → matches topic_list path = true →
          length path = length topic_list.
Proof.
  induction topic_list as [|head tail IH]; intros path Hmc Hm.
  - simpl in Hm. by apply bool_decide_eq_true in Hm as ->.
  - rewrite multi_count_cons in Hmc. rewrite matches_cons in Hm.
    destruct (decide (head = "**")) as [->|H2]; [simpl in Hmc; lia|].
    simpl in Hmc. destruct path as [|key path]; [by destruct (decide (head = "*"))|].
    simpl. f_equal. apply IH; [done|].
    destruct (decide (head = "*")); [done|].
    by apply andb_true_iff in Hm as [_ Hm].
Qed.

(** X18.  A pattern without ["**"] that has at least as many segments as the
    tree has levels returns the empty set. *)
Theorem get_subscribers_too_deep root topic_list :
  multi_count topic_list = 0 → height root ≤ length topic_list →
  get_subscribers root topic_list = ∅.
Proof.
  intros Hmc Hdeep. apply set_eq. intros x. split; [|by intros ?%elem_of_empty].
  intros (path & node & Hm & Hw & _)%elem_of_get_subscribers.
  apply matches_length in Hm; [|done]. apply walk_height in Hw.
  assert (0 < height node) by (destruct node; simpl; lia). lia.
Qed.

Lemma get_subscribers_too_deep_witness :
  get_subscribers example_tree ["nytimes"; "*"; "editorial"; "*"] = ∅.
Proof.
  apply get_subscribers_too_deep.
  - vm_compute. reflexivity.
  - vm_compute. lia.
Defined.

(** ** Registration and the subtree aggregator *)

(** X17.  After [add_subscriber] the subtree aggregator on the root returns
    what it returned before together with the registered id. *)
Theorem get_subscribers_recursive_after_add root subscriber_id topic_list :
  get_subscribers_recursive (add_subscriber root subscriber_id topic_list)
  = get_subscribers_recursive root ∪ {[subscriber_id]}.
Proof.
  apply set_eq. intros x.
  rewrite elem_of_union, elem_of_singleton, !elem_of_get_subscribers_recursive. split.
  - intros (path & node' & Hw & Hx).
    pose proof (walk_add_subscriber_subscribers root subscriber_id topic_list path) as Hs.
    rewrite Hw in Hs. simpl in Hs.
    assert (Hcase : x ∈ default ∅ (subscribers <$> walk root path) ∨ x = subscriber_id).
    { destruct (decide (path `prefix_of` topic_list)).
      - injection Hs as Hs. rewrite Hs in Hx.
        apply elem_of_union in Hx as [Hx|Hx]; [by left|].
        destruct (decide (path = topic_list)); [|by apply elem_of_empty in Hx].
        right. by apply elem_of_singleton in Hx.
      - left. destruct (walk root path) as [node|]; [|done].
        injection Hs as Hs. simpl. by rewrite <- Hs. }
    destruct Hcase as [Hold| ->]; [left|by right].
    destruct (walk root path) as [node|] eqn:Hwalk; [eauto|by apply elem_of_empty in Hold].
  - intros [(path & node & Hw & Hx)| ->].
    + destruct (walk_add_subscriber_mono root subscriber_id topic_list path node Hw)
        as (node' & Hw' & Hsub).
      exists path, node'. split; [done|by apply Hsub].
    + destruct (walk_add_subscriber root subscriber_id topic_list) as (node & Hw & Hx).
      eauto.
Qed.

(** ** The fresh tree, and the nodes a removal leaves behind *)

(** X19.  On a fresh tree every query and the subtree aggregator return the
    empty set. *)
Theorem get_subscribers_new_node topic_list :
  get_subscribers new_node topic_list = ∅
  ∧ get_subscribers_recursive new_node = ∅.
Proof.
  assert (Hnone : ∀ path node x,
            walk new_node path = Some node → x ∉ subscribers node).
  { intros [|key path] node x Hw; [|done].
    injection Hw as <-. apply not_elem_of_empty. }
  split; apply set_eq; intros x; (split; [|by intros ?%elem_of_empty]).
  - intros (path & node & _ & Hw & Hx)%elem_of_get_subscribers.
    by destruct (Hnone path node x Hw).
  - intros (path & node & Hw & Hx)%elem_of_get_subscribers_recursive.
    by destruct (Hnone path node x Hw).
Qed.

(** X20.  Nodes are not pruned: when the path did not exist, registering an
    id on it and removing it again does not give the tree back, the nodes
    created for the path stay. *)
Theorem remove_after_add_keeps_path root subscriber_id topic_list :
  walk root topic_list = None →
  remove_subscriber (add_subscriber root subscriber_id topic_list)
    subscriber_id topic_list ≠ root
  ∧ subscribers
      <$> walk (remove_subscriber (add_subscriber root subscriber_id topic_list)
                  subscriber_id topic_list) topic_list
    = Some ∅.
Proof.
  intros Hnone.
  assert (Hafter : subscribers
            <$> walk (remove_subscriber (add_subscriber root subscriber_id topic_list)
                        subscriber_id topic_list) topic_list = Some ∅).
  { rewrite walk_remove_subscriber_subscribers.
    destruct (decide (topic_list = topic_list)) as [_|[]]; [|done].
    pose proof (walk_add_subscriber_subscribers root subscriber_id topic_list topic_list)
      as Hs.
    rewrite Hnone in Hs.
    destruct (decide (topic_list `prefix_of` topic_list)) as [_|[]]; [|done].
    destruct (decide (topic_list = topic_list)) as [_|[]]; [|done].
    destruct (walk (add_subscriber root subscriber_id topic_list) topic_list)
      as [node|]; [|done].
    injection Hs as Hs. simpl. f_equal. rewrite Hs. simpl.
    rewrite (left_id_L ∅ (∪)). apply set_eq. intros x.
    rewrite elem_of_difference. split; [by intros [? ?]|by intros ?%elem_of_empty]. }
  split; [|done]. intros Heq. rewrite Heq, Hnone in Hafter. done.
Qed.

Lemma remove_after_add_keeps_path_witness :
  remove_subscriber (add_subscriber new_node "sub1" ["nytimes"]) "sub1" ["nytimes"]
  ≠ new_node
  ∧ subscribers
      <$> walk (remove_subscriber (add_subscriber new_node "sub1" ["nytimes"])
                  "sub1" ["nytimes"]) ["nytimes"]
    = Some ∅.
Proof. apply remove_after_add_keeps_path. reflexivity. Defined.

(** ** Patterns and paths, on examples *)

Example matches_multi_suffix :
  matches ["nytimes"; "**"] ["nytimes"; "us"; "sports"] = true.
Proof. reflexivity. Qed.

Example matches_multi_zero : matches ["nytimes"; "**"] ["nytimes"] = true.
Proof. reflexivity. Qed.

Example matches_single_needs_level : matches ["nytimes"; "*"] ["nytimes"] = false.
Proof. reflexivity. Qed.

Example matches_single_one_level :
  matches ["*"; "us"; "editorial"] ["washington"; "us"; "editorial"] = true.
Proof. reflexivity. Qed.

Example matches_literal_differs :
  matches ["nytimes"; "us"] ["nytimes"; "uk"] = false.
Proof. reflexivity. Qed.
